(** * car.py: a remote-control client for a camera-equipped vehicle

    The script opens a websocket to the vehicle, and from the socket's
    open callback starts a thread that opens the video stream and, for each
    frame it reads, sends one constant steering/throttle command.

    The development follows the file top to bottom:
    - [Py]: the few Python values the script handles, [str()] and f-strings;
    - [Car]: the module-level constants, the callbacks and the statements of
      [run] as a small-step machine over the effects the script performs;
    - [Sys]: the main thread dispatching socket events, interleaved with
      the threads the callback [on_open] starts. *)

From Stdlib Require Import String Ascii List ZArith Lia Bool Arith DecimalString.
Import ListNotations.
Open Scope string_scope.

(** ** Python values, [str()] and f-strings *)

Module Py.

(** Exceptions that the statements of the script can raise. *)
Inductive exn :=
| AttributeError        (* attribute of None *)
| IndexError            (* tuple index out of range *)
| TypeError             (* subscript of something that is no tuple *)
| NameError             (* unbound name *)
| SyntaxError           (* malformed f-string template *)
| ConnectionClosed.     (* raised by the socket client's send *)

Inductive result (A : Type) :=
| Ok (a : A)
| Err (e : exn).
Arguments Ok {A} a.
Arguments Err {A} e.

Definition bind {A B} (r : result A) (k : A -> result B) : result B :=
  match r with
  | Ok a => k a
  | Err e => Err e
  end.

Notation "x <- r ;; k" := (bind r (fun x => k))
  (at level 61, r at next level, right associativity).

(** A float constant of the script is a whole number of tenths ([0.0] and
    [0.2]); it is kept as that number, which is what its decimal text shows. *)
Inductive pyfloat := Tenths (t : Z).

(** A decoded video frame: an array with its shape tuple and its samples. *)
Record ndarray := { shape : list Z; samples : list Z }.

Inductive value :=
| PyNone
| PyBool (b : bool)
| PyInt (z : Z)
| PyFloat (f : pyfloat)
| PyStr (s : string)
| PyTuple (vs : list Z)
| PyArray (a : ndarray)
| PyObject (name : string).   (* an opaque library object: capture, exception *)

Definition str_int (z : Z) : string := NilZero.string_of_int (Z.to_int z).

(** [str()] of a float with one fractional digit: [0.0], [0.2], [-1.5]. *)
Definition str_float (f : pyfloat) : string :=
  let 'Tenths t := f in
  (if (t <? 0)%Z then "-" else "")
    ++ str_int (Z.abs t / 10) ++ "." ++ str_int (Z.abs t mod 10).

Definition py_str (v : value) : string :=
  match v with
  | PyNone => "None"
  | PyBool true => "True"
  | PyBool false => "False"
  | PyInt z => str_int z
  | PyFloat f => str_float f
  | PyStr s => s
  | PyTuple _ => "(...)"
  | PyArray _ => "[...]"
  | PyObject name => name
  end.

(** Truth value of a condition. *)
Definition truthy (v : value) : bool :=
  match v with
  | PyNone => false
  | PyBool b => b
  | PyInt z => negb (z =? 0)%Z
  | PyFloat (Tenths t) => negb (t =? 0)%Z
  | PyStr s => negb (String.eqb s "")
  | PyTuple vs => negb (Nat.eqb (List.length vs) 0)
  | PyArray _ => true
  | PyObject _ => true
  end.

(** A name space: the most recent binding of a name comes first. *)
Definition env := list (string * value).

Fixpoint lookup (x : string) (e : env) : result value :=
  match e with
  | [] => Err NameError
  | (y, v) :: e' => if String.eqb x y then Ok v else lookup x e'
  end.

Fixpoint unbind (x : string) (e : env) : env :=
  match e with
  | [] => []
  | (y, v) :: e' => if String.eqb x y then unbind x e' else (y, v) :: unbind x e'
  end.

(** Binding a name replaces the binding it had. *)
Definition assign (x : string) (v : value) (e : env) : env :=
  (x, v) :: unbind x e.

(** [v.shape]: only arrays have it; on [None] the access fails. *)
Definition get_shape (v : value) : result value :=
  match v with
  | PyArray a => Ok (PyTuple (shape a))
  | _ => Err AttributeError
  end.

(** [t[i]] for a non-negative literal index [i]. *)
Definition subscript (v : value) (i : nat) : result value :=
  match v with
  | PyTuple vs =>
      match nth_error vs i with
      | Some z => Ok (PyInt z)
      | None => Err IndexError
      end
  | _ => Err TypeError
  end.

(** *** f-strings

    The template is the text between the quotes after Python has read the
    string escapes.  A doubled brace stands for the brace itself and
    [{name}] for [str()] of the value bound to [name]; the script uses no
    other replacement field. *)

Inductive mode :=
| Text
| SawOpen
| SawClose
| Field (name : string).

Definition lbrace : ascii := ascii_of_nat 123.
Definition rbrace : ascii := ascii_of_nat 125.

Definition push (c : ascii) (r : result string) : result string :=
  s <- r ;; Ok (String c s).

Fixpoint fstring_from (e : env) (m : mode) (t : string) : result string :=
  match t with
  | EmptyString =>
      match m with
      | Text => Ok EmptyString
      | _ => Err SyntaxError
      end
  | String c t' =>
      match m with
      | Text =>
          if Ascii.eqb c lbrace then fstring_from e SawOpen t'
          else if Ascii.eqb c rbrace then fstring_from e SawClose t'
          else push c (fstring_from e Text t')
      | SawOpen =>
          if Ascii.eqb c lbrace then push lbrace (fstring_from e Text t')
          else if Ascii.eqb c rbrace then Err SyntaxError
          else fstring_from e (Field (String c EmptyString)) t'
      | SawClose =>
          if Ascii.eqb c rbrace then push rbrace (fstring_from e Text t')
          else Err SyntaxError
      | Field name =>
          if Ascii.eqb c rbrace then
            v <- lookup name e ;;
            s <- fstring_from e Text t' ;;
            Ok (py_str v ++ s)
          else fstring_from e (Field (name ++ String c EmptyString)) t'
      end
  end.

Definition fstring (e : env) (t : string) : result string :=
  fstring_from e Text t.

(** The double quote, for the texts that contain it. *)
Definition dq : string := String (ascii_of_nat 34) EmptyString.

End Py.

(** ** The script *)

Module Car.
Import Py.

(** *** Module level (lines 6 to 10) *)

Definition host : string := "donkeycar".
Definition port : Z := 8887.

Definition socket_template : string := "ws://{host}:{port}/wsDrive".
Definition video_template : string := "http://{host}:{port}/video".

(** The module's name space once lines 6 to 10 have run with the given
    host and port; each f-string is evaluated in the bindings made so far. *)
Definition module_env (h : string) (p : Z) : result env :=
  let g := assign "port" (PyInt p) (assign "host" (PyStr h) []) in
  sa <- fstring g socket_template ;;
  let g := assign "socket_address" (PyStr sa) g in
  va <- fstring g video_template ;;
  Ok (assign "video_address" (PyStr va) g).

Definition globals : env :=
  match module_env host port with
  | Ok g => g
  | Err _ => []
  end.

Definition socket_address : result value := lookup "socket_address" globals.
Definition video_address : result value := lookup "video_address" globals.

(** *** What the script does to the outside *)

Inductive effect :=
| EnableTrace (b : bool)     (* websocket.enableTrace(b) *)
| NewApp (url : value)       (* websocket.WebSocketApp(url, callbacks) *)
| RunForever                 (* ws.run_forever() *)
| StartThread                (* _thread.start_new_thread(run, ()) *)
| CapOpen (url : value)      (* cv2.VideoCapture(url) *)
| CapRead                    (* cap.read() *)
| WsSend (data : value)      (* ws.send(data) *)
| Print (line : string).     (* print(x): the line str(x) *)

(** *** The callbacks (lines 12 to 21)

    Each runs on the thread of [run_forever]; its result is what it does. *)

Definition on_message (ws message : value) : list effect :=
  [Print (py_str message)].

Definition on_error (ws error : value) : list effect :=
  [Print (py_str error)].

Definition on_close (ws close_status_code close_msg : value) : list effect :=
  [Print "### closed ###"].

(** *** [run] (lines 25 to 42), statement by statement *)

(** What the two libraries answer.  The capture reports a failed read in
    its result (the flag and no frame); the socket's send either returns or
    raises.  [video k] is the answer to the [k]-th read of a thread,
    [socket k] tells whether its [k]-th send returns. *)
Record world := {
  video : nat -> bool * option ndarray;
  socket : nat -> bool
}.

(** The statements of [run], named by their line in car.py. *)
Inductive label := L28 | L30 | L31 | L32 | L34 | L35 | L37 | L38 | L40 | L41 | L42.

Inductive status :=
| At (l : label)      (* about to run the statement at this line *)
| Raised (e : exn)    (* an exception left [run]: the thread is over *)
| Returned.           (* [run] returned: the thread is over *)

Record thread := {
  st : status;
  locals : env;
  reads : nat;     (* reads made so far *)
  sends : nat      (* sends made so far *)
}.

Definition message_template : string :=
  "{{" ++ dq ++ "angle" ++ dq ++ ":{angle}," ++ dq ++ "throttle" ++ dq
    ++ ":{throttle}," ++ dq ++ "drive_mode" ++ dq ++ ":" ++ dq ++ "user" ++ dq
    ++ "," ++ dq ++ "recording" ++ dq ++ ":false}}".

Definition frame_value (f : option ndarray) : value :=
  match f with
  | Some a => PyArray a
  | None => PyNone
  end.

Definition goto (l : label) (s : thread) : thread :=
  {| st := At l; locals := locals s; reads := reads s; sends := sends s |}.

Definition raise (e : exn) (s : thread) : thread :=
  {| st := Raised e; locals := locals s; reads := reads s; sends := sends s |}.

Definition store (x : string) (v : value) (s : thread) : thread :=
  {| st := st s; locals := assign x v (locals s);
     reads := reads s; sends := sends s |}.

(** A name is looked up in the locals of [run], then in the module. *)
Definition name (x : string) (s : thread) : result value :=
  lookup x (locals s ++ globals)%list.

(** [ret, frame = cap.read()], then on to [l]. *)
Definition cap_read (w : world) (l : label) (s : thread) : thread * list effect :=
  let '(ret, frame) := video w (reads s) in
  ({| st := At l;
      locals := assign "frame" (frame_value frame)
                  (assign "ret" (PyBool ret) (locals s));
      reads := S (reads s); sends := sends s |},
   [CapRead]).

(** [x = frame.shape[i]], then on to [l]. *)
Definition shape_at (x : string) (i : nat) (l : label) (s : thread)
  : thread * list effect :=
  match (f <- name "frame" s ;; sh <- get_shape f ;; subscript sh i) with
  | Ok v => (goto l (store x v s), [])
  | Err e => (raise e s, [])
  end.

Definition step (w : world) (s : thread) : thread * list effect :=
  match st s with
  | At L28 =>   (* cap = cv2.VideoCapture(video_address) *)
      match name "video_address" s with
      | Ok url => (goto L30 (store "cap" (PyObject "VideoCapture") s), [CapOpen url])
      | Err e => (raise e s, [])
      end
  | At L30 =>   (* ret, frame = cap.read() *)
      cap_read w L31 s
  | At L31 =>   (* height = frame.shape[0] *)
      shape_at "height" 0 L32 s
  | At L32 =>   (* width = frame.shape[1] *)
      shape_at "width" 1 L34 s
  | At L34 =>   (* while True: *)
      if truthy (PyBool true) then (goto L35 s, [])
      else ({| st := Returned; locals := locals s;
               reads := reads s; sends := sends s |}, [])
  | At L35 =>   (* ret, frame = cap.read() *)
      cap_read w L37 s
  | At L37 =>   (* angle = 0.0 *)
      (goto L38 (store "angle" (PyFloat (Tenths 0)) s), [])
  | At L38 =>   (* throttle = 0.2 *)
      (goto L40 (store "throttle" (PyFloat (Tenths 2)) s), [])
  | At L40 =>   (* message = f"..." *)
      match fstring (locals s ++ globals)%list message_template with
      | Ok m => (goto L41 (store "message" (PyStr m) s), [])
      | Err e => (raise e s, [])
      end
  | At L41 =>   (* ws.send(message) *)
      match name "message" s with
      | Ok m =>
          ({| st := if socket w (sends s) then At L42 else Raised ConnectionClosed;
              locals := locals s; reads := reads s; sends := S (sends s) |},
           [WsSend m])
      | Err e => (raise e s, [])
      end
  | At L42 =>   (* print(message) *)
      match name "message" s with
      | Ok m => (goto L34 s, [Print (py_str m)])
      | Err e => (raise e s, [])
      end
  | Raised _ | Returned => (s, [])
  end.

(** [n] steps, with everything done on the way, in order. *)
Fixpoint exec (w : world) (n : nat) (s : thread) : thread * list effect :=
  match n with
  | O => (s, [])
  | S n' =>
      let (s1, e1) := step w s in
      let (s2, e2) := exec w n' s1 in
      (s2, (e1 ++ e2)%list)
  end.

(** The thread as [start_new_thread(run, ())] creates it. *)
Definition start : thread :=
  {| st := At L28;
     locals := [("args", PyTuple []); ("ws", PyObject "WebSocketApp")];
     reads := 0; sends := 0 |}.

(** [on_open] (lines 24 to 44): defines [run] and starts one thread on it. *)
Definition on_open (ws : value) : list effect * list thread :=
  ([StartThread], [start]).

(** One turn of the loop: the seven statements from line 34 to line 42. *)
Definition turn (w : world) (s : thread) : thread * list effect := exec w 7 s.

(** The text of the command, as it goes over the socket. *)
Definition command : string :=
  "{" ++ dq ++ "angle" ++ dq ++ ":0.0," ++ dq ++ "throttle" ++ dq ++ ":0.2,"
    ++ dq ++ "drive_mode" ++ dq ++ ":" ++ dq ++ "user" ++ dq ++ "," ++ dq
    ++ "recording" ++ dq ++ ":false}".

(** Lines 31 and 32 on the first frame: the exception they raise, if any. *)
Definition startup (f : option ndarray) : option exn :=
  match (sh <- get_shape (frame_value f) ;;
         _ <- subscript sh 0 ;; subscript sh 1) with
  | Ok _ => None
  | Err e => Some e
  end.

Definition startup_ok (f : option ndarray) : bool :=
  match startup f with
  | None => true
  | Some _ => false
  end.

(** The statements of the loop. *)
Definition in_loop (st : status) : bool :=
  match st with
  | At (L34 | L35 | L37 | L38 | L40 | L41 | L42) => true
  | _ => false
  end.

(** What the locals hold between the statements of the loop body. *)
Definition bound (s : thread) : Prop :=
  match st s with
  | At L38 => exists r, locals s = ("angle", PyFloat (Tenths 0)) :: r
  | At L40 =>
      exists r, locals s = ("throttle", PyFloat (Tenths 2))
                             :: ("angle", PyFloat (Tenths 0)) :: r
  | At L41 | At L42 => exists r, locals s = ("message", PyStr command) :: r
  | _ => True
  end.

(** What a statement of [run] can do: open the capture, read a frame,
    send the command or print it. *)
Definition plain (e : effect) : Prop :=
  match e with
  | CapOpen _ | CapRead => True
  | WsSend m => m = PyStr command
  | Print l => l = command
  | _ => False
  end.

(** Two threads at the same statement past line 32, with as many sends
    behind them. *)
Definition alike (s1 s2 : thread) : Prop :=
  st s1 = st s2 /\ sends s1 = sends s2
  /\ match st s1 with At (L28 | L30 | L31 | L32) => False | _ => True end
  /\ bound s1 /\ bound s2.

(** Where [run] stands after its first [n] statements, [n] up to four, and
    what it has done, as the first frame decides. *)
Definition early (n : nat) (f : option ndarray) : status * list effect :=
  let url := PyStr "http://donkeycar:8887/video" in
  match n with
  | 0 => (At L28, [])
  | 1 => (At L30, [CapOpen url])
  | 2 => (At L31, [CapOpen url; CapRead])
  | 3 =>
      (match (sh <- get_shape (frame_value f) ;; subscript sh 0) with
       | Ok _ => At L32
       | Err e => Raised e
       end, [CapOpen url; CapRead])
  | _ =>
      (match startup f with
       | None => At L34
       | Some e => Raised e
       end, [CapOpen url; CapRead])
  end.

(** What one full turn of the loop does, and what [run] does in all when
    it has opened the capture, read the first frame and made [k] turns. *)
Definition beat : list effect :=
  [CapRead; WsSend (PyStr command); Print command].

Definition script (k : nat) : list effect :=
  ([CapOpen (PyStr "http://donkeycar:8887/video"); CapRead]
     ++ concat (repeat beat k))%list.

(** What [run] has done so far, by the statement it is at. *)
Definition track (t : list effect) (s : thread) : Prop :=
  match st s with
  | At L28 =>
      t = [] /\ name "video_address" s = Ok (PyStr "http://donkeycar:8887/video")
  | At L30 => t = [CapOpen (PyStr "http://donkeycar:8887/video")]
  | At (L31 | L32) => t = script 0
  | At (L34 | L35) => exists k, t = script k
  | At (L37 | L38 | L40 | L41) => exists k, t = (script k ++ [CapRead])%list
  | At L42 | Raised ConnectionClosed =>
      exists k, t = (script k ++ [CapRead; WsSend (PyStr command)])%list
  | Raised _ => t = script 0
  | Returned => False
  end.

(** The statements after lines 28 to 32, and a thread that is over. *)
Definition past_startup (st : status) : bool :=
  match st with
  | At (L28 | L30 | L31 | L32) => false
  | _ => true
  end.

(** The names the loop body binds. *)
Definition loop_names : list string :=
  ["ret"; "frame"; "angle"; "throttle"; "message"].

(** *** Counting in a trace *)

Definition is_read (e : effect) : bool :=
  match e with CapRead => true | _ => false end.

Definition is_send (e : effect) : bool :=
  match e with WsSend _ => true | _ => false end.

Definition is_connect (e : effect) : bool :=
  match e with RunForever | NewApp _ => true | _ => false end.

Definition sent (t : list effect) : list value :=
  flat_map (fun e => match e with WsSend m => [m] | _ => [] end) t.

Definition count (p : effect -> bool) (t : list effect) : nat :=
  List.length (filter p t).

End Car.

(** ** The whole program: the main thread and the threads it starts *)

Module Sys.
Import Py Car.

(** What the socket client can deliver to the callbacks it was given. *)
Inductive ws_event :=
| Open
| Message (m : value)
| Error (e : value)
| Close (code msg : value).

(** The program's log: the events delivered and what each thread did, in
    the order it happened.  Thread 0 is the main thread, thread [S i] the
    [i]-th thread started. *)
Inductive item :=
| Fired (ev : ws_event)
| Did (tid : nat) (e : effect).

Record system := {
  pending : list ws_event;   (* events the client has yet to deliver *)
  threads : list thread;     (* the threads started, oldest first *)
  log : list item
}.

Definition ws : value := PyObject "WebSocketApp".

(** The main block (lines 47 to 55) up to and including its last call. *)
Definition main : list effect :=
  match socket_address with
  | Ok url => [EnableTrace true; NewApp url; RunForever]
  | Err _ => [EnableTrace true]
  end.

(** [run_forever] hands each event to the callback registered for it. *)
Definition dispatch (ev : ws_event) : list effect * list thread :=
  match ev with
  | Open => on_open ws
  | Message m => (on_message ws m, [])
  | Error e => (on_error ws e, [])
  | Close code msg => (on_close ws code msg, [])
  end.

Fixpoint replace {A} (i : nat) (x : A) (l : list A) : list A :=
  match l, i with
  | [], _ => []
  | _ :: l', O => x :: l'
  | y :: l', S i' => y :: replace i' x l'
  end.

(** Who moves next: the main thread takes the next event, or a started
    thread runs its next statement. *)
Inductive choice :=
| Main
| Bg (i : nat).

Definition sys_step (env : nat -> world) (c : choice) (s : system) : system :=
  match c with
  | Main =>
      match pending s with
      | [] => s
      | ev :: rest =>
          let (es, ts) := dispatch ev in
          {| pending := rest;
             threads := (threads s ++ ts)%list;
             log := (log s ++ Fired ev :: map (Did 0) es)%list |}
      end
  | Bg i =>
      match nth_error (threads s) i with
      | None => s
      | Some t =>
          let (t', es) := step (env i) t in
          {| pending := pending s;
             threads := replace i t' (threads s);
             log := (log s ++ map (Did (S i)) es)%list |}
      end
  end.

Definition run_sys (env : nat -> world) (sched : list choice) (s : system)
  : system :=
  fold_left (fun s c => sys_step env c s) sched s.

(** The program when [run_forever] has just been called. *)
Definition init (events : list ws_event) : system :=
  {| pending := events; threads := []; log := map (Did 0) main |}.

(** What thread [tid] did, read off the log. *)
Definition proj (tid : nat) (l : list item) : list effect :=
  flat_map (fun it =>
              match it with
              | Did t e => if Nat.eqb t tid then [e] else []
              | Fired _ => []
              end) l.

Definition effects (l : list item) : list effect :=
  flat_map (fun it => match it with Did _ e => [e] | Fired _ => [] end) l.

Definition is_open (it : item) : bool :=
  match it with Fired Open => true | _ => false end.

Definition is_start (it : item) : bool :=
  match it with Did _ StartThread => true | _ => false end.

(** Opening the capture, reading a frame, sending a command. *)
Definition is_io (e : effect) : bool :=
  match e with
  | CapOpen _ | CapRead | WsSend _ => true
  | _ => false
  end.

(** What a started thread can do, as opposed to the main thread. *)
Definition thread_effect (e : effect) : Prop :=
  match e with
  | CapOpen _ | CapRead | WsSend _ | Print _ => True
  | _ => False
  end.

(** Log entries that make no connection. *)
Definition quiet (it : item) : Prop :=
  match it with
  | Did _ e => is_connect e = false
  | Fired _ => True
  end.

(** How many open events were delivered, how many threads were started. *)
Definition opens (l : list item) : nat := List.length (filter is_open l).
Definition starts (l : list item) : nat := List.length (filter is_start l).

(** What holds of the program at every moment. *)
Definition sound (env : nat -> world) (s : system) : Prop :=
  List.length (threads s) = opens (log s)
  /\ starts (log s) = opens (log s)
  /\ (exists rest, log s = (map (Did 0) main ++ rest)%list /\ Forall quiet rest)
  /\ (forall n t e, nth_error (log s) n = Some (Did t e) ->
        (t = 0 /\ is_io e = false)
        \/ (1 <= t <= List.length (threads s) /\ thread_effect e
            /\ exists m, m < n /\ nth_error (log s) m = Some (Fired Open)))
  /\ (forall i t, nth_error (threads s) i = Some t ->
        exists k, exec (env i) k start = (t, proj (S i) (log s))).

(** *** The end of the process

    [run_forever] is the last statement of the main block (line 55): when
    it returns the main thread is over and the interpreter exits.  The
    threads started by [_thread.start_new_thread] (line 44) are not waited
    for: they stop wherever they stand, and no exception is raised in
    them. *)
Record process := {
  prog : system;
  ended : bool     (* the interpreter has exited *)
}.

Inductive move :=
| Go (c : choice)   (* the main thread or a started thread moves on *)
| Leave.            (* run_forever returns, all events being delivered *)

Definition proc_step (env : nat -> world) (m : move) (p : process) : process :=
  if ended p then p
  else
    match m with
    | Go c => {| prog := sys_step env c (prog p); ended := false |}
    | Leave =>
        match pending (prog p) with
        | [] => {| prog := prog p; ended := true |}
        | _ :: _ => p
        end
    end.

Definition run_proc (env : nat -> world) (moves : list move) (p : process)
  : process :=
  fold_left (fun p m => proc_step env m p) moves p.

(** The process when [run_forever] has just been called. *)
Definition boot (events : list ws_event) : process :=
  {| prog := init events; ended := false |}.

End Sys.

(** ** Sample runs *)

Module Sample.
Import Py Car Sys.

Definition frame0 : ndarray := {| shape := [120; 160; 3]%Z; samples := [7; 7; 7]%Z |}.
Definition frame1 : ndarray := {| shape := [240; 320; 3]%Z; samples := [0; 255]%Z |}.

(** A stream that always delivers, one whose reads fail after the first,
    and one that never delivers. *)
Definition steady : nat -> bool * option ndarray := fun _ => (true, Some frame0).
Definition flaky : nat -> bool * option ndarray :=
  fun k => match k with O => (true, Some frame1) | _ => (false, None) end.
Definition dead : nat -> bool * option ndarray := fun _ => (false, None).

Definition w_steady : world := {| video := steady; socket := fun _ => true |}.
Definition w_flaky : world := {| video := flaky; socket := fun _ => true |}.
Definition w_dead : world := {| video := dead; socket := fun _ => true |}.

(** The socket is closed when the second command is sent. *)
Definition w_closing : world :=
  {| video := steady; socket := fun k => Nat.ltb k 1 |}.

Definition events0 : list ws_event :=
  [Open; Message (PyStr "ok"); Error (PyObject "timed out"); Close PyNone PyNone].

Definition sched0 : list choice :=
  [Bg 0; Main; Bg 0; Bg 0; Main; Bg 0; Bg 0; Bg 0; Main; Bg 0; Bg 0; Bg 0;
   Bg 0; Main; Bg 0; Bg 0; Bg 0; Bg 0; Bg 0; Bg 0].

End Sample.



(** ** Facts about [run] *)

Import Py Car Sys.

Lemma exec_add (w : world) (a b : nat) (s : thread) :
  fst (exec w (a + b) s) = fst (exec w b (fst (exec w a s)))
  /\ snd (exec w (a + b) s)
     = (snd (exec w a s) ++ snd (exec w b (fst (exec w a s))))%list.
Proof.
  revert s; induction a as [|a IH]; intros s.
  - split; reflexivity.
  - change (S a + b) with (S (a + b)). cbn [exec].
    destruct (step w s) as [s1 e1]. specialize (IH s1).
    destruct (exec w (a + b) s1) as [s3 e3], (exec w a s1) as [s2 e2].
    cbn [fst snd] in *. destruct IH as [-> ->].
    now rewrite app_assoc.
Qed.

(** A thread that is over does nothing more. *)
Lemma exec_over (w : world) (n : nat) (s : thread) :
  (forall l, st s <> At l) -> exec w n s = (s, []).
Proof.
  intros Hl; induction n as [|n IH]; cbn [exec]; [reflexivity|].
  unfold step. destruct (st s) as [l| |] eqn:E.
  - now destruct (Hl l).
  - now rewrite IH.
  - now rewrite IH.
Qed.

(** The f-string of line 40 yields the command whenever [angle] and
    [throttle] are bound as lines 37 and 38 bind them. *)
Lemma message_is_command (r g : env) :
  fstring ((("throttle", PyFloat (Tenths 2))
              :: ("angle", PyFloat (Tenths 0)) :: r) ++ g)%list
          message_template = Ok command.
Proof. vm_compute. reflexivity. Qed.

Lemma name_message (r : env) (v : value) (st0 : status) (rd sd : nat) :
  name "message" {| st := st0; locals := ("message", v) :: r;
                    reads := rd; sends := sd |} = Ok v.
Proof. reflexivity. Qed.

Ltac bindings :=
  cbn; unfold assign; cbn; split; eauto; repeat constructor.

(** The locals stay as the loop body needs them, and nothing but the
    command is ever sent or printed. *)
Lemma step_bound (w : world) (s : thread) :
  bound s -> bound (fst (step w s)) /\ Forall plain (snd (step w s)).
Proof.
  destruct s as [st0 loc rd sd]. unfold bound, step. cbn [st locals].
  destruct st0 as [[]| |]; intros B; cbn [st locals reads sends].
  - destruct (name "video_address" _); bindings.
  - unfold cap_read; cbn [reads locals sends]. destruct (video w rd); bindings.
  - unfold shape_at. destruct (bind _ _); bindings.
  - unfold shape_at. destruct (bind _ _); bindings.
  - bindings.
  - unfold cap_read; cbn [reads locals sends]. destruct (video w rd); bindings.
  - bindings.
  - destruct B as [r ->]. bindings.
  - destruct B as [r ->]. rewrite message_is_command. bindings.
  - destruct B as [r ->]. rewrite name_message.
    destruct (socket w sd); bindings.
  - destruct B as [r ->]. rewrite name_message. bindings.
  - bindings.
  - bindings.
Qed.

Lemma exec_bound (w : world) (n : nat) (s : thread) :
  bound s -> bound (fst (exec w n s)) /\ Forall plain (snd (exec w n s)).
Proof.
  revert s; induction n as [|n IH]; intros s B; cbn [exec].
  - split; [assumption | constructor].
  - destruct (step_bound w s B) as [B1 P1].
    destruct (step w s) as [s1 e1]; cbn [fst snd] in *.
    destruct (IH s1 B1) as [B2 P2].
    destruct (exec w n s1) as [s2 e2]; cbn [fst snd] in *.
    split; [assumption | now apply Forall_app].
Qed.

Lemma sent_plain (t : list effect) :
  Forall plain t -> Forall (fun m => m = PyStr command) (sent t).
Proof.
  induction 1 as [|e t He _ IH]; [constructor|].
  destruct e; cbn in *; try assumption; try contradiction.
  now constructor.
Qed.

(** One turn from the head of the loop, whatever the locals hold. *)
Lemma turn_from_head (w : world) (s : thread) :
  st s = At L34 ->
  exists s',
    turn w s =
      (s', if socket w (sends s)
           then [CapRead; WsSend (PyStr command); Print command]
           else [CapRead; WsSend (PyStr command)])
    /\ st s' = (if socket w (sends s) then At L34 else Raised ConnectionClosed)
    /\ reads s' = S (reads s) /\ sends s' = S (sends s).
Proof.
  destruct s as [st0 loc rd sd]; cbn [st sends reads]; intros ->.
  destruct (video w rd) as [ret frame] eqn:Ev, (socket w sd) eqn:Es.
  all: cbv -[video socket]; rewrite Ev; cbv -[video socket]; rewrite Es;
    eexists; repeat split.
Qed.

(** In the loop, a statement leads to the next one; only the send can end
    the thread, by raising. *)
Lemma step_in_loop (w : world) (s : thread) :
  in_loop (st s) = true -> bound s ->
  in_loop (st (fst (step w s))) = true
  \/ (st (fst (step w s)) = Raised ConnectionClosed
      /\ socket w (sends s) = false).
Proof.
  destruct s as [st0 loc rd sd]. unfold bound, step. cbn [st locals sends].
  destruct st0 as [[]| |]; intros L B; try discriminate L;
    cbn [st locals reads sends].
  - now left.
  - unfold cap_read; cbn [reads]. destruct (video w rd). now left.
  - now left.
  - now left.
  - destruct B as [r ->]. rewrite message_is_command. now left.
  - destruct B as [r ->]. rewrite name_message. cbn.
    destruct (socket w sd); [now left | now right].
  - destruct B as [r ->]. rewrite name_message. now left.
Qed.

Lemma exec_in_loop (w : world) (n : nat) (s : thread) :
  in_loop (st s) = true -> bound s ->
  in_loop (st (fst (exec w n s))) = true
  \/ (st (fst (exec w n s)) = Raised ConnectionClosed
      /\ exists k, socket w k = false).
Proof.
  revert s; induction n as [|n IH]; intros s L B; cbn [exec].
  - now left.
  - destruct (step_in_loop w s L B) as [L1 | [R1 F1]];
      destruct (step_bound w s B) as [B1 _];
      destruct (step w s) as [s1 e1]; cbn [fst snd] in *.
    + specialize (IH s1 L1 B1).
      destruct (exec w n s1) as [s2 e2]; cbn [fst snd] in *. exact IH.
    + rewrite exec_over by (intros l; rewrite R1; discriminate).
      cbn [fst]. right. split; [assumption | now exists (sends s)].
Qed.

(** Past the first frame, where the thread stands and what it does next
    depend on nothing but the statement it is at and the socket. *)
Lemma step_alike (w1 w2 : world) (s1 s2 : thread) :
  (forall k, socket w1 k = socket w2 k) -> alike s1 s2 ->
  alike (fst (step w1 s1)) (fst (step w2 s2))
  /\ snd (step w1 s1) = snd (step w2 s2).
Proof.
  intros Hs (E & Es & P & B1 & B2).
  destruct (step_bound w1 s1 B1) as [B1' _], (step_bound w2 s2 B2) as [B2' _].
  unfold alike. revert B1' B2'.
  destruct s1 as [st1 l1 r1 d1], s2 as [st2 l2 r2 d2].
  unfold bound in B1, B2. cbn [st locals sends] in *. subst st2 d2.
  unfold step; cbn [st locals sends reads].
  destruct st1 as [[]| |]; try contradiction; cbn [st locals reads sends].
  - intros; repeat split; auto.
  - unfold cap_read; cbn [reads locals sends].
    destruct (video w1 r1), (video w2 r2). intros; repeat split; auto.
  - intros; repeat split; auto.
  - intros; repeat split; auto.
  - destruct B1 as [x1 ->], B2 as [x2 ->]. rewrite !message_is_command.
    intros; repeat split; auto.
  - destruct B1 as [x1 ->], B2 as [x2 ->]. rewrite !name_message, Hs.
    cbn [fst snd st sends]. intros; repeat split; auto.
    now destruct (socket w2 d1).
  - destruct B1 as [x1 ->], B2 as [x2 ->]. rewrite !name_message.
    intros; repeat split; auto.
  - intros; repeat split; auto.
  - intros; repeat split; auto.
Qed.

Lemma exec_alike (w1 w2 : world) (n : nat) (s1 s2 : thread) :
  (forall k, socket w1 k = socket w2 k) -> alike s1 s2 ->
  st (fst (exec w1 n s1)) = st (fst (exec w2 n s2))
  /\ snd (exec w1 n s1) = snd (exec w2 n s2).
Proof.
  intros Hs; revert s1 s2; induction n as [|n IH]; intros s1 s2 A; cbn [exec].
  - split; [apply A | reflexivity].
  - destruct (step_alike w1 w2 s1 s2 Hs A) as [A1 E1].
    destruct (step w1 s1) as [t1 e1], (step w2 s2) as [t2 e2].
    cbn [fst snd] in *. destruct (IH t1 t2 A1) as [Est Etr].
    destruct (exec w1 n t1) as [u1 f1], (exec w2 n t2) as [u2 f2].
    cbn [fst snd] in *. split; [assumption | congruence].
Qed.

(** The first four statements. *)
Lemma early_exec (w : world) (n : nat) :
  n <= 4 ->
  (st (fst (exec w n start)), snd (exec w n start)) = early n (snd (video w 0))
  /\ sends (fst (exec w n start)) = 0.
Proof.
  intros Hn.
  destruct (video w 0) as [ret [[[|h [|wd sh]] smp]|]] eqn:Ev;
    do 5 (destruct n as [|n]; [cbv -[video socket]; rewrite ?Ev; split; reflexivity|]);
    lia.
Qed.

Lemma early_trace (n : nat) (f g : option ndarray) :
  snd (early n f) = snd (early n g).
Proof. do 4 (destruct n as [|n]; [reflexivity|]). reflexivity. Qed.

Lemma early_status (w : world) (n : nat) :
  n <= 4 -> st (fst (exec w n start)) = fst (early n (snd (video w 0))).
Proof.
  intros Hn. destruct (early_exec w n Hn) as [E _].
  now apply (f_equal fst) in E.
Qed.

Lemma early_effects (w : world) (n : nat) :
  n <= 4 -> snd (exec w n start) = snd (early n (snd (video w 0))).
Proof.
  intros Hn. destruct (early_exec w n Hn) as [E _].
  now apply (f_equal snd) in E.
Qed.

Lemma early_sends (w : world) (n : nat) :
  n <= 4 -> sends (fst (exec w n start)) = 0.
Proof. intros Hn. now destruct (early_exec w n Hn) as [_ E]. Qed.

Lemma early_4 (f : option ndarray) :
  fst (early 4 f)
  = match startup f with None => At L34 | Some e => Raised e end.
Proof. reflexivity. Qed.

(** Two runs of [run] against the same socket do the same whenever their
    first frames both pass, or both fail, lines 31 and 32. *)
Lemma runs_agree (w1 w2 : world) (n : nat) :
  (forall k, socket w1 k = socket w2 k) ->
  startup_ok (snd (video w1 0)) = startup_ok (snd (video w2 0)) ->
  snd (exec w1 n start) = snd (exec w2 n start).
Proof.
  intros Hs Ho. destruct (le_lt_dec n 4) as [Hn | Hn].
  - rewrite !early_effects by assumption. apply early_trace.
  - replace n with (4 + (n - 4)) by lia.
    destruct (exec_add w1 4 (n - 4) start) as [_ ->].
    destruct (exec_add w2 4 (n - 4) start) as [_ ->].
    rewrite !early_effects by lia.
    rewrite (early_trace 4 (snd (video w1 0)) (snd (video w2 0))). f_equal.
    pose proof (early_status w1 4 (le_n 4)) as S1.
    pose proof (early_status w2 4 (le_n 4)) as S2.
    pose proof (early_sends w1 4 (le_n 4)) as D1.
    pose proof (early_sends w2 4 (le_n 4)) as D2.
    rewrite early_4 in S1, S2. unfold startup_ok in Ho.
    destruct (startup (snd (video w1 0))) as [e1|],
             (startup (snd (video w2 0))) as [e2|]; try discriminate Ho.
    + rewrite (exec_over w1 (n - 4) (fst (exec w1 4 start)))
        by (intros l; rewrite S1; discriminate).
      rewrite (exec_over w2 (n - 4) (fst (exec w2 4 start)))
        by (intros l; rewrite S2; discriminate).
      reflexivity.
    + apply exec_alike; [assumption|]. unfold alike, bound.
      rewrite S1, S2, D1, D2. repeat split.
Qed.

(** With the same first frame the two runs also stand at the same place. *)
Lemma runs_agree_status (w1 w2 : world) (n : nat) :
  (forall k, socket w1 k = socket w2 k) ->
  snd (video w1 0) = snd (video w2 0) ->
  st (fst (exec w1 n start)) = st (fst (exec w2 n start)).
Proof.
  intros Hs Hf. destruct (le_lt_dec n 4) as [Hn | Hn].
  - rewrite !early_status by assumption. now rewrite Hf.
  - replace n with (4 + (n - 4)) by lia.
    destruct (exec_add w1 4 (n - 4) start) as [-> _].
    destruct (exec_add w2 4 (n - 4) start) as [-> _].
    pose proof (early_status w1 4 (le_n 4)) as S1.
    pose proof (early_status w2 4 (le_n 4)) as S2.
    pose proof (early_sends w1 4 (le_n 4)) as D1.
    pose proof (early_sends w2 4 (le_n 4)) as D2.
    rewrite early_4 in S1, S2. rewrite <- Hf in S2.
    destruct (startup (snd (video w1 0))) as [e|].
    + rewrite (exec_over w1 (n - 4) (fst (exec w1 4 start)))
        by (intros l; rewrite S1; discriminate).
      rewrite (exec_over w2 (n - 4) (fst (exec w2 4 start)))
        by (intros l; rewrite S2; discriminate).
      cbn [fst]. congruence.
    + apply exec_alike; [assumption|]. unfold alike, bound.
      rewrite S1, S2, D1, D2. repeat split.
Qed.

(** ** The claims about [run] *)



(** C2. Every message [run] hands to the socket is one and the same JSON
    text, the one with angle 0.0 and throttle 0.2: after any number of
    statements, in any world, all the messages sent so far are that text,
    and a turn of the loop sends it once. *)
Theorem every_message_is_the_command (w : world) (n : nat) (s : thread) :
  let text :=
    "{" ++ dq ++ "angle" ++ dq ++ ":0.0," ++ dq ++ "throttle" ++ dq ++ ":0.2,"
      ++ dq ++ "drive_mode" ++ dq ++ ":" ++ dq ++ "user" ++ dq ++ "," ++ dq
      ++ "recording" ++ dq ++ ":false}" in
  Forall (fun m => m = PyStr text) (sent (snd (exec w n start)))
  /\ (st s = At L34 -> sent (snd (turn w s)) = [PyStr text]).
Proof.
  intros text. change text with command. split.
  - apply sent_plain, exec_bound. exact I.
  - intros H. destruct (turn_from_head w s H) as (s' & -> & _).
    cbn [snd]. now destruct (socket w (sends s)).
Qed.

Lemma every_message_is_the_command_witness :
  sent (snd (turn Sample.w_steady (fst (exec Sample.w_steady 4 start))))
  = [PyStr command].
Proof.
  apply (every_message_is_the_command Sample.w_steady 0
           (fst (exec Sample.w_steady 4 start))).
  vm_compute; reflexivity.
Defined.

(** C3. What [run] sends does not depend on the video: take any two
    streams of read results, with any frames and any success flags, whose
    first frames agree on whether lines 31 and 32 pass (as they do when the
    streams differ only after the first read); against the same socket the
    two runs do the same things in the same order, so they send the same
    sequence of messages. *)
Theorem messages_independent_of_video
    (v1 v2 : nat -> bool * option ndarray) (sock : nat -> bool) (n : nat) :
  startup_ok (snd (v1 0)) = startup_ok (snd (v2 0)) ->
  snd (exec {| video := v1; socket := sock |} n start)
  = snd (exec {| video := v2; socket := sock |} n start)
  /\ sent (snd (exec {| video := v1; socket := sock |} n start))
     = sent (snd (exec {| video := v2; socket := sock |} n start)).
Proof.
  intros H.
  assert (E : snd (exec {| video := v1; socket := sock |} n start)
              = snd (exec {| video := v2; socket := sock |} n start))
    by (apply runs_agree; [reflexivity | exact H]).
  split; [exact E | now rewrite E].
Qed.

Lemma messages_independent_of_video_witness :
  sent (snd (exec Sample.w_steady 40 start))
  = sent (snd (exec Sample.w_flaky 40 start)).
Proof.
  apply (messages_independent_of_video Sample.steady Sample.flaky
           (fun _ => true) 40).
  reflexivity.
Defined.

(** C4, as stated, fails: the loop is entered after four statements, and
    when the socket is closed at the second send the send raises, nothing
    catches it, and the thread is over: it does nothing from then on. *)
Lemma loop_ends_when_send_raises :
  st (fst (exec Sample.w_closing 4 start)) = At L34
  /\ st (fst (exec Sample.w_closing 17 start)) = Raised ConnectionClosed
  /\ forall n, exec Sample.w_closing (17 + n) start
               = exec Sample.w_closing 17 start.
Proof.
  assert (R : st (fst (exec Sample.w_closing 17 start)) = Raised ConnectionClosed)
    by (vm_compute; reflexivity).
  split; [vm_compute; reflexivity|]. split; [exact R|].
  intros n. destruct (exec_add Sample.w_closing 17 n start) as [F S].
  revert F S.
  generalize (exec Sample.w_closing (17 + n) start).
  revert R. generalize (exec Sample.w_closing 17 start).
  intros [s17 t17] R [s t]; cbn [fst snd] in *.
  rewrite exec_over by (intros l; rewrite R; discriminate).
  cbn [fst snd]. rewrite app_nil_r. now intros -> ->.
Qed.

Lemma turns_while_send_returns (w : world) (k : nat) (s : thread) :
  st s = At L34 ->
  (forall j, j < k -> socket w (sends s + j) = true) ->
  st (fst (exec w (7 * k) s)) = At L34
  /\ reads (fst (exec w (7 * k) s)) = reads s + k
  /\ sends (fst (exec w (7 * k) s)) = sends s + k
  /\ sent (snd (exec w (7 * k) s)) = repeat (PyStr command) k.
Proof.
  revert s; induction k as [|k IH]; intros s H Hs.
  - cbn. rewrite !Nat.add_0_r. auto.
  - replace (7 * S k) with (7 + 7 * k) by lia.
    destruct (exec_add w 7 (7 * k) s) as [-> ->].
    destruct (turn_from_head w s H) as (s' & E & Hst & Hr & Hd).
    unfold turn in E. rewrite E. cbn [fst snd].
    assert (S0 : socket w (sends s) = true)
      by (rewrite <- (Nat.add_0_r (sends s)); apply Hs; lia).
    rewrite S0 in Hst |- *.
    destruct (IH s' Hst) as (I1 & I2 & I3 & I4).
    { intros j Hj. rewrite Hd. replace (S (sends s) + j) with (sends s + S j) by lia.
      apply Hs; lia. }
    rewrite I1, I2, I3, Hr, Hd. repeat split; try lia.
    unfold sent in *. rewrite flat_map_app, I4. reflexivity.
Qed.

(** C9. The flag returned by [cap.read()] is never looked at: whatever
    flags the reads return, with the same frames [run] does the same
    things and stands at the same statement.  In particular line 31 takes
    [frame.shape] of the first frame without any test; when the first read
    returns no frame that access raises AttributeError at the third
    statement, the thread is over, and no command is ever sent. *)
Theorem first_read_unchecked
    (frames : nat -> option ndarray) (ok1 ok2 : nat -> bool)
    (sock : nat -> bool) (n : nat) :
  let w1 := {| video := fun k => (ok1 k, frames k); socket := sock |} in
  let w2 := {| video := fun k => (ok2 k, frames k); socket := sock |} in
  (snd (exec w1 n start) = snd (exec w2 n start)
   /\ st (fst (exec w1 n start)) = st (fst (exec w2 n start)))
  /\ (frames 0 = None ->
      sent (snd (exec w1 n start)) = []
      /\ (3 <= n -> st (fst (exec w1 n start)) = Raised AttributeError)).
Proof.
  intros w1 w2. split; [split|].
  - apply runs_agree; reflexivity.
  - apply runs_agree_status; reflexivity.
  - intros F.
    assert (E3 : st (fst (exec w1 3 start)) = Raised AttributeError).
    { rewrite early_status by lia. cbn [video w1 snd]. now rewrite F. }
    assert (T3 : forall m, m <= 3 -> sent (snd (exec w1 m start)) = []).
    { intros m Hm. rewrite early_effects by lia.
      do 4 (destruct m as [|m]; [reflexivity|]). lia. }
    destruct (le_lt_dec n 3) as [Hn | Hn].
    + split; [now apply T3|]. intros H3. now replace n with 3 by lia.
    + replace n with (3 + (n - 3)) by lia.
      destruct (exec_add w1 3 (n - 3) start) as [-> ->].
      rewrite (exec_over w1 (n - 3) (fst (exec w1 3 start)))
        by (intros l; rewrite E3; discriminate).
      cbn [fst snd]. rewrite app_nil_r. split; [apply T3; lia | now intros _].
Qed.

Lemma first_read_unchecked_witness :
  sent (snd (exec Sample.w_dead 10 start)) = []
  /\ st (fst (exec Sample.w_dead 10 start)) = Raised AttributeError.
Proof.
  destruct (first_read_unchecked (fun _ => None) (fun _ => false)
              (fun _ => true) (fun _ => true) 10) as [_ H].
  destruct (H eq_refl) as [H1 H2].
  split; [exact H1 | apply H2; lia].
Defined.

(** C7. The socket address and the video address are built from the same
    host and the same port: whatever host and port lines 6 and 7 bind,
    lines 9 and 10 yield the two addresses with that host and that port
    between the scheme and the path; with the host and port of the script
    these are ws://donkeycar:8887/wsDrive and
    http://donkeycar:8887/video, the first is what the main block connects
    to and the second is what [run] opens the capture on. *)
Theorem addresses_share_host (h : string) (p : Z) (w : world) :
  module_env h p
  = Ok [("video_address", PyStr ("http://" ++ h ++ ":" ++ str_int p ++ "/video"));
        ("socket_address", PyStr ("ws://" ++ h ++ ":" ++ str_int p ++ "/wsDrive"));
        ("port", PyInt p); ("host", PyStr h)]
  /\ socket_address = Ok (PyStr "ws://donkeycar:8887/wsDrive")
  /\ video_address = Ok (PyStr "http://donkeycar:8887/video")
  /\ main = [EnableTrace true; NewApp (PyStr "ws://donkeycar:8887/wsDrive");
             RunForever]
  /\ snd (step w start) = [CapOpen (PyStr "http://donkeycar:8887/video")].
Proof.
  split; [|repeat split; vm_compute; reflexivity].
  cbv -[str_int append]. reflexivity.
Qed.

(** ** Facts about the whole program *)

Lemma length_replace {A} (i : nat) (x : A) (l : list A) :
  List.length (replace i x l) = List.length l.
Proof.
  revert i; induction l as [|y l IH]; intros [|i]; cbn; auto.
Qed.

Lemma nth_error_replace_eq {A} (i : nat) (x y : A) (l : list A) :
  nth_error l i = Some y -> nth_error (replace i x l) i = Some x.
Proof.
  revert i; induction l as [|z l IH]; intros [|i]; cbn; try discriminate; auto.
Qed.

Lemma nth_error_replace_neq {A} (i j : nat) (x : A) (l : list A) :
  i <> j -> nth_error (replace i x l) j = nth_error l j.
Proof.
  revert i j; induction l as [|z l IH]; intros [|i] [|j] H; cbn; auto;
    try (now destruct H); try (apply IH; congruence).
Qed.

Lemma proj_app (t : nat) (l1 l2 : list item) :
  proj t (l1 ++ l2) = (proj t l1 ++ proj t l2)%list.
Proof. apply flat_map_app. Qed.

Lemma proj_same (t : nat) (es : list effect) : proj t (map (Did t) es) = es.
Proof.
  induction es as [|e es IH]; [reflexivity|].
  cbn. rewrite Nat.eqb_refl. cbn. now f_equal.
Qed.

Lemma proj_other (t u : nat) (es : list effect) :
  u <> t -> proj t (map (Did u) es) = [].
Proof.
  intros H. induction es as [|e es IH]; [reflexivity|].
  cbn. destruct (Nat.eqb_spec u t); [contradiction | exact IH].
Qed.

Lemma proj_none (t : nat) (l : list item) :
  (forall u e, In (Did u e) l -> u <> t) -> proj t l = [].
Proof.
  induction l as [|it l IH]; intros H; [reflexivity|].
  assert (E0 : proj t l = [])
    by (apply IH; intros u e Hin; apply (H u e); now right).
  unfold proj in *. cbn [flat_map]. rewrite E0, app_nil_r.
  destruct it as [ev | u e]; [reflexivity|].
  destruct (Nat.eqb_spec u t) as [E|]; [|reflexivity].
  exfalso. apply (H u e); [now left | exact E].
Qed.

Lemma opens_app (l1 l2 : list item) : opens (l1 ++ l2) = opens l1 + opens l2.
Proof. unfold opens. now rewrite filter_app, length_app. Qed.

Lemma starts_app (l1 l2 : list item) : starts (l1 ++ l2) = starts l1 + starts l2.
Proof. unfold starts. now rewrite filter_app, length_app. Qed.

Lemma opens_did (t : nat) (es : list effect) : opens (map (Did t) es) = 0.
Proof. unfold opens. induction es as [|e es IH]; [reflexivity | exact IH]. Qed.

(** An open event that was counted stands somewhere in the log. *)
Lemma opens_found (l : list item) :
  0 < opens l -> exists m, m < List.length l /\ nth_error l m = Some (Fired Open).
Proof.
  unfold opens. induction l as [|it l IH]; cbn; [lia|].
  destruct (is_open it) eqn:E.
  - intros _. exists 0. split; [lia|].
    destruct it as [[]|]; try discriminate E. reflexivity.
  - intros H. destruct (IH H) as (m & Hm & Hn). exists (S m). split; [lia | exact Hn].
Qed.

(** A statement of [run] does nothing that only the main thread does. *)
Lemma step_thread_effect (w : world) (t : thread) :
  Forall thread_effect (snd (step w t)).
Proof.
  destruct t as [st0 loc rd sd]. unfold step. cbn [st].
  destruct st0 as [[]| |].
  - destruct (name "video_address" _); repeat constructor.
  - unfold cap_read. destruct (video w _); repeat constructor.
  - unfold shape_at. destruct (bind _ _); repeat constructor.
  - unfold shape_at. destruct (bind _ _); repeat constructor.
  - repeat constructor.
  - unfold cap_read. destruct (video w _); repeat constructor.
  - repeat constructor.
  - repeat constructor.
  - destruct (fstring _ _); repeat constructor.
  - destruct (name "message" _); repeat constructor.
  - destruct (name "message" _); repeat constructor.
  - repeat constructor.
  - repeat constructor.
Qed.

Lemma starts_thread (t : nat) (es : list effect) :
  Forall thread_effect es -> starts (map (Did t) es) = 0.
Proof.
  unfold starts. induction 1 as [|e es He _ IH]; [reflexivity|].
  destruct e; cbn in *; try contradiction; exact IH.
Qed.

Lemma quiet_thread (t : nat) (es : list effect) :
  Forall thread_effect es -> Forall quiet (map (Did t) es).
Proof.
  induction 1 as [|e es He _ IH]; [constructor|].
  cbn. constructor; [|exact IH].
  destruct e; cbn in *; try contradiction; reflexivity.
Qed.

(** What the callbacks do, event by event. *)
Lemma dispatch_cases (ev : ws_event) :
  (ev = Open /\ dispatch ev = ([StartThread], [start]))
  \/ (ev <> Open /\ exists line, dispatch ev = ([Print line], [])).
Proof.
  destruct ev; [left | right ..]; (split; [congruence || reflexivity|]);
    try reflexivity; eexists; reflexivity.
Qed.

(** A move of the program leaves it as it is, delivers an event to its
    callback, or lets a started thread run one statement. *)
Lemma sys_step_cases (env : nat -> world) (c : choice) (s : system) :
  sys_step env c s = s
  \/ (exists ev rest,
        pending s = ev :: rest
        /\ sys_step env c s
           = {| pending := rest;
                threads := (threads s ++ snd (dispatch ev))%list;
                log := (log s ++ Fired ev :: map (Did 0) (fst (dispatch ev)))%list |})
  \/ (exists i t,
        nth_error (threads s) i = Some t
        /\ sys_step env c s
           = {| pending := pending s;
                threads := replace i (fst (step (env i) t)) (threads s);
                log := (log s ++ map (Did (S i)) (snd (step (env i) t)))%list |}).
Proof.
  destruct c as [|i]; unfold sys_step.
  - destruct (pending s) as [|ev rest] eqn:E; [now left|].
    right; left. exists ev, rest. split; [reflexivity|].
    now destruct (dispatch ev).
  - destruct (nth_error (threads s) i) as [t|] eqn:E; [|now left].
    right; right. exists i, t. split; [exact E || reflexivity|].
    now destruct (step (env i) t).
Qed.

Lemma run_sys_ind (env : nat -> world) (P : system -> Prop) :
  (forall c s, P s -> P (sys_step env c s)) ->
  forall sched s, P s -> P (run_sys env sched s).
Proof.
  intros Hstep sched. unfold run_sys.
  induction sched as [|c sched IH]; intros s Hs; cbn; [exact Hs|].
  apply IH, Hstep, Hs.
Qed.

Lemma sound_init (env : nat -> world) (events : list ws_event) :
  sound env (init events).
Proof.
  unfold sound, init; cbn [threads log pending]. repeat split.
  - exists []. split; [now rewrite app_nil_r | constructor].
  - intros n t e H. left.
    do 3 (destruct n as [|n]; [injection H as <- <-; now split|]).
    destruct n; discriminate H.
  - intros i t H. destruct i; discriminate H.
Qed.

Lemma nth_error_app_cases {A} (l1 l2 : list A) (n : nat) (x : A) :
  nth_error (l1 ++ l2) n = Some x ->
  (n < List.length l1 /\ nth_error l1 n = Some x)
  \/ (List.length l1 <= n /\ nth_error l2 (n - List.length l1) = Some x).
Proof.
  intros H. destruct (lt_dec n (List.length l1)) as [L | L].
  - left. split; [exact L|]. now rewrite nth_error_app1 in H.
  - right. split; [lia|]. now rewrite nth_error_app2 in H by lia.
Qed.

Lemma exec_one (w : world) (t : thread) :
  exec w 1 t = (fst (step w t), snd (step w t)).
Proof.
  cbn [exec]. destruct (step w t) as [t' es]. cbn [fst snd].
  now rewrite app_nil_r.
Qed.

Lemma exec_snoc (w : world) (k : nat) (s t : thread) (es : list effect) :
  exec w k s = (t, es) ->
  exec w (k + 1) s = (fst (step w t), (es ++ snd (step w t))%list).
Proof.
  intros E. destruct (exec_add w k 1 s) as [F S].
  rewrite E in F, S. cbn [fst snd] in F, S. rewrite exec_one in F, S.
  cbn [fst snd] in F, S.
  now rewrite (surjective_pairing (exec w (k + 1) s)), F, S.
Qed.

Lemma opens_other (ev : ws_event) (es : list effect) :
  ev <> Open -> opens (Fired ev :: map (Did 0) es) = 0.
Proof.
  intros H. unfold opens. cbn [filter].
  destruct ev; [now destruct H | ..]; cbn [is_open]; apply (opens_did 0 es).
Qed.

(** Every move of the program keeps it sound. *)
Lemma sound_step (env : nat -> world) (c : choice) (s : system) :
  sound env s -> sound env (sys_step env c s).
Proof.
  intros (Hlen & Hst & (rest & Hlog & Hq) & Hwho & Hsolo).
  destruct (sys_step_cases env c s)
    as [E | [(ev & rest' & Hp & E) | (i & t & Hn & E)]]; rewrite E; clear E.
  - repeat split; auto. now exists rest.
  - (* the main thread hands an event to its callback *)
    unfold sound; cbn [threads log].
    destruct (dispatch_cases ev) as [[-> D] | [Hne (line & D)]];
      rewrite D; cbn [fst snd map].
    + (* on_open *)
      split; [|split; [|split; [|split]]].
      * rewrite length_app, opens_app. cbn. lia.
      * rewrite starts_app, opens_app. cbn. lia.
      * exists (rest ++ [Fired Open; Did 0 StartThread])%list. split.
        -- now rewrite Hlog, app_assoc.
        -- apply Forall_app. split; [exact Hq | repeat constructor].
      * intros n t e H.
        destruct (nth_error_app_cases _ _ _ _ H) as [[L H'] | [L H']].
        -- destruct (Hwho n t e H') as [Hm | (Ht & He & m & Hm & Hf)];
             [now left | right].
           split; [rewrite length_app; lia|]. split; [exact He|].
           exists m. split; [exact Hm|]. rewrite nth_error_app1; [exact Hf | lia].
        -- left. destruct (n - List.length (log s)) as [|[|k]]; cbn in H'.
           ++ discriminate H'.
           ++ injection H' as <- <-. now split.
           ++ destruct k; discriminate H'.
      * intros i t H.
        destruct (nth_error_app_cases _ _ _ _ H) as [[L H'] | [L H']].
        -- destruct (Hsolo i t H') as [k Hk]. exists k.
           rewrite proj_app. cbn. now rewrite app_nil_r.
        -- assert (Hi : i = List.length (threads s)).
           { assert (i - List.length (threads s) < 1)
               by (apply (nth_error_Some [start]); rewrite H'; discriminate).
             lia. }
           subst i. rewrite Nat.sub_diag in H'. injection H' as <-.
           exists 0. cbn [exec]. f_equal.
           rewrite proj_app. cbn. rewrite app_nil_r. symmetry.
           apply proj_none. intros u e Hin.
           destruct (In_nth_error _ _ Hin) as [n Hnth].
           destruct (Hwho n u e Hnth) as [[-> _] | (Hu & _)]; lia.
    + (* on_message, on_error, on_close *)
      rewrite app_nil_r.
      assert (O0 : opens [Fired ev; Did 0 (Print line)] = 0)
        by (apply (opens_other ev [Print line] Hne)).
      assert (S0 : starts [Fired ev; Did 0 (Print line)] = 0) by reflexivity.
      split; [|split; [|split; [|split]]].
      * rewrite opens_app, O0. lia.
      * rewrite starts_app, opens_app, O0, S0. lia.
      * exists (rest ++ [Fired ev; Did 0 (Print line)])%list. split.
        -- now rewrite Hlog, app_assoc.
        -- apply Forall_app. split; [exact Hq | repeat constructor].
      * intros n t e H.
        destruct (nth_error_app_cases _ _ _ _ H) as [[L H'] | [L H']].
        -- destruct (Hwho n t e H') as [Hm | (Ht & He & m & Hm & Hf)];
             [now left | right].
           split; [exact Ht|]. split; [exact He|].
           exists m. split; [exact Hm|]. rewrite nth_error_app1; [exact Hf | lia].
        -- left. destruct (n - List.length (log s)) as [|[|k]]; cbn in H'.
           ++ discriminate H'.
           ++ injection H' as <- <-. now split.
           ++ destruct k; discriminate H'.
      * intros i t H. destruct (Hsolo i t H) as [k Hk]. exists k.
        rewrite proj_app. cbn. now rewrite app_nil_r.
  - (* a started thread runs one statement *)
    unfold sound; cbn [threads log].
    pose proof (step_thread_effect (env i) t) as Hte.
    assert (Hi : i < List.length (threads s))
      by (apply nth_error_Some; rewrite Hn; discriminate).
    rewrite length_replace.
    split; [|split; [|split; [|split]]].
    + rewrite opens_app, opens_did. lia.
    + rewrite starts_app, opens_app, opens_did, starts_thread by exact Hte. lia.
    + exists (rest ++ map (Did (S i)) (snd (step (env i) t)))%list. split.
      * now rewrite Hlog, app_assoc.
      * apply Forall_app. split; [exact Hq | now apply quiet_thread].
    + intros n u e H.
      destruct (nth_error_app_cases _ _ _ _ H) as [[L H'] | [L H']].
      * destruct (Hwho n u e H') as [Hm | (Ht & He & m & Hm & Hf)];
          [now left | right].
        split; [exact Ht|]. split; [exact He|].
        exists m. split; [exact Hm|]. rewrite nth_error_app1; [exact Hf | lia].
      * right. apply nth_error_In, in_map_iff in H'.
        destruct H' as (e' & He' & Hin). injection He' as <- <-.
        split; [lia|]. split.
        -- rewrite Forall_forall in Hte. now apply Hte.
        -- destruct (opens_found (log s)) as (m & Hm & Hf); [lia|].
           exists m. split; [lia|]. rewrite nth_error_app1; [exact Hf | lia].
    + intros j u H. destruct (Nat.eq_dec i j) as [<- | Hij].
      * rewrite (nth_error_replace_eq i _ t) in H by exact Hn.
        injection H as <-. destruct (Hsolo i t Hn) as [k Hk].
        exists (k + 1). rewrite (exec_snoc _ _ _ _ _ Hk).
        now rewrite proj_app, proj_same.
      * rewrite nth_error_replace_neq in H by exact Hij.
        destruct (Hsolo j u H) as [k Hk]. exists k.
        rewrite proj_app, proj_other, app_nil_r; [exact Hk | lia].
Qed.

Lemma sound_run (env : nat -> world) (events : list ws_event)
    (sched : list choice) :
  sound env (run_sys env sched (init events)).
Proof.
  apply run_sys_ind; [intros c s; apply sound_step | apply sound_init].
Qed.

(** ** The claims about the whole program *)

(** C5. The callbacks [on_message], [on_error] and [on_close] only print:
    the first two print their argument, the third the fixed marker; in
    whatever state the program is, delivering a message, an error or a
    close makes the main thread print that one line and changes nothing
    else: no thread is started, stopped or touched, nothing is sent, no
    connection is made, and the events still pending stay pending. *)
Theorem callbacks_only_print
    (env : nat -> world) (p : list ws_event) (ts : list thread)
    (l : list item) (m e code msg : value) :
  on_message ws m = [Print (py_str m)]
  /\ on_error ws e = [Print (py_str e)]
  /\ on_close ws code msg = [Print "### closed ###"]
  /\ sys_step env Main {| pending := Message m :: p; threads := ts; log := l |}
     = {| pending := p; threads := ts;
          log := (l ++ [Fired (Message m); Did 0 (Print (py_str m))])%list |}
  /\ sys_step env Main {| pending := Error e :: p; threads := ts; log := l |}
     = {| pending := p; threads := ts;
          log := (l ++ [Fired (Error e); Did 0 (Print (py_str e))])%list |}
  /\ sys_step env Main {| pending := Close code msg :: p; threads := ts; log := l |}
     = {| pending := p; threads := ts;
          log := (l ++ [Fired (Close code msg); Did 0 (Print "### closed ###")])%list |}.
Proof.
  repeat split; unfold sys_step; cbn [pending threads log dispatch on_message
    on_error on_close map]; now rewrite app_nil_r.
Qed.

(** C6. The program never retries: whatever events the socket delivers,
    errors and closes included, and however the threads are scheduled, the
    log starts with the three calls of the main block (enableTrace, the
    WebSocketApp for the socket address, one run_forever) and nothing that
    follows creates an application or calls run_forever again. *)
Theorem connects_once
    (env : nat -> world) (events : list ws_event) (sched : list choice) :
  exists rest,
    log (run_sys env sched (init events))
    = ([Did 0 (EnableTrace true);
        Did 0 (NewApp (PyStr "ws://donkeycar:8887/wsDrive"));
        Did 0 RunForever] ++ rest)%list
    /\ Forall quiet rest
    /\ count is_connect (effects (log (run_sys env sched (init events)))) = 2.
Proof.
  destruct (sound_run env events sched) as (_ & _ & (rest & Hlog & Hq) & _).
  exists rest. split; [exact Hlog|]. split; [exact Hq|].
  rewrite Hlog. unfold effects, count. rewrite flat_map_app, filter_app, length_app.
  change (List.length (filter is_connect (flat_map _ (map (Did 0) main)))) with 2.
  assert (E : filter is_connect
                (flat_map (fun it => match it with
                                     | Did _ e => [e]
                                     | Fired _ => []
                                     end) rest) = []).
  { clear Hlog. induction Hq as [|it rest Hit _ IH]; [reflexivity|].
    cbn [flat_map]. rewrite filter_app, IH, app_nil_r.
    destruct it as [ev | t e]; [reflexivity|]. cbn in Hit |- *. now rewrite Hit. }
  now rewrite E.
Qed.

(** C8. Frames are read and commands sent on started threads only, one
    thread per open event: at every moment the threads started are as many
    as the open events delivered and as the start_new_thread calls made;
    every read and every send in the log was done by one of these threads,
    never by the main thread; and each thread goes its own way: its state
    and what it did are those of [run] alone after some number of
    statements, whatever the events delivered and the other threads did. *)
Theorem one_thread_per_open
    (env : nat -> world) (events : list ws_event) (sched : list choice) :
  let s := run_sys env sched (init events) in
  List.length (threads s) = opens (log s)
  /\ starts (log s) = opens (log s)
  /\ (forall n t e, nth_error (log s) n = Some (Did t e) ->
        is_read e || is_send e = true -> 1 <= t <= List.length (threads s))
  /\ (forall i t, nth_error (threads s) i = Some t ->
        exists k, exec (env i) k start = (t, proj (S i) (log s))).
Proof.
  intros s.
  destruct (sound_run env events sched) as (Hlen & Hst & _ & Hwho & Hsolo).
  fold s in Hlen, Hst, Hwho, Hsolo.
  split; [exact Hlen|]. split; [exact Hst|]. split; [|exact Hsolo].
  intros n t e H Hio.
  destruct (Hwho n t e H) as [[_ Hno] | (Ht & _)]; [|exact Ht].
  destruct e; cbn in Hio, Hno; discriminate.
Qed.

Lemma one_thread_per_open_witness :
  List.length (threads (run_sys (fun _ => Sample.w_steady) Sample.sched0
                          (init Sample.events0))) = 1
  /\ 1 <= 1 <= List.length (threads (run_sys (fun _ => Sample.w_steady)
                                       Sample.sched0 (init Sample.events0))).
Proof.
  destruct (one_thread_per_open (fun _ => Sample.w_steady) Sample.events0
              Sample.sched0) as (H1 & _ & H3 & _).
  split.
  - rewrite H1. vm_compute. reflexivity.
  - apply (H3 6 1 CapRead); vm_compute; reflexivity.
Defined.

(** C10. The capture is opened only after the socket is open: in every
    run, whatever opens the capture, reads a frame or sends a command is
    done by a started thread, not the main thread, and an open event was
    delivered earlier in the log. *)
Theorem io_only_after_open
    (env : nat -> world) (events : list ws_event) (sched : list choice)
    (n t : nat) (e : effect) :
  nth_error (log (run_sys env sched (init events))) n = Some (Did t e) ->
  is_io e = true ->
  t <> 0
  /\ exists m, m < n
       /\ nth_error (log (run_sys env sched (init events))) m = Some (Fired Open).
Proof.
  intros H Hio.
  destruct (sound_run env events sched) as (_ & _ & _ & Hwho & _).
  destruct (Hwho n t e H) as [[_ Hno] | (Ht & _ & Hm)].
  - rewrite Hio in Hno. discriminate.
  - split; [lia | exact Hm].
Qed.

Lemma io_only_after_open_witness :
  exists m, m < 5
    /\ nth_error (log (run_sys (fun _ => Sample.w_steady) Sample.sched0
                        (init Sample.events0))) m = Some (Fired Open).
Proof.
  apply (io_only_after_open (fun _ => Sample.w_steady) Sample.events0
           Sample.sched0 5 1 (CapOpen (PyStr "http://donkeycar:8887/video")));
    vm_compute; reflexivity.
Defined.

(** ** More about [run] *)

Lemma script_S (k : nat) : script (S k) = (script k ++ beat)%list.
Proof.
  unfold script. rewrite <- app_assoc. f_equal.
  induction k as [|k IH]; [reflexivity|].
  change (repeat beat (S (S k))) with (beat :: repeat beat (S k)).
  change (repeat beat (S k)) with (beat :: repeat beat k) at 2.
  cbn [concat]. rewrite IH. now rewrite app_assoc.
Qed.

Lemma lookup_error (x : string) (e : env) (ex : exn) :
  lookup x e = Err ex -> ex = NameError.
Proof.
  induction e as [|[y v] e IH]; cbn.
  - now intros [= <-].
  - destruct (String.eqb x y); [discriminate | exact IH].
Qed.

(** Lines 31 and 32 raise no exception of the socket. *)
Lemma shape_error (s : thread) (i : nat) (ex : exn) :
  (f <- name "frame" s ;; sh <- get_shape f ;; subscript sh i) = Err ex ->
  ex <> ConnectionClosed.
Proof.
  unfold name. destruct (lookup "frame" _) as [f|e0] eqn:E; cbn [bind].
  - destruct f; cbn; try (intros [= <-]; discriminate).
    destruct (nth_error _ i); intros [= <-]; discriminate.
  - intros [= <-]. apply lookup_error in E. subst e0. discriminate.
Qed.

Lemma step_track (w : world) (s : thread) (t : list effect) :
  bound s -> track t s -> track (t ++ snd (step w s)) (fst (step w s)).
Proof.
  destruct s as [st0 loc rd sd]. unfold bound, track, step. cbn [st locals].
  destruct st0 as [[]| |]; intros B T; cbn [st locals reads sends].
  - destruct T as [-> ->]. reflexivity.
  - unfold cap_read; cbn [reads locals sends]. destruct (video w rd).
    cbn [fst snd st]. now subst t.
  - unfold shape_at.
    destruct (bind _ _) as [v|ex] eqn:E; cbn [fst snd st goto store raise];
      rewrite app_nil_r; [exact T|].
    apply shape_error in E. now destruct ex.
  - unfold shape_at.
    destruct (bind _ _) as [v|ex] eqn:E; cbn [fst snd st goto store raise];
      rewrite app_nil_r; [now exists 0|].
    apply shape_error in E. now destruct ex.
  - cbn. now rewrite app_nil_r.
  - unfold cap_read; cbn [reads locals sends]. destruct (video w rd).
    cbn [fst snd st]. destruct T as [k ->]. now exists k.
  - cbn. now rewrite app_nil_r.
  - cbn. now rewrite app_nil_r.
  - destruct B as [r ->]. rewrite message_is_command. cbn. now rewrite app_nil_r.
  - destruct B as [r ->]. rewrite name_message. cbn [fst snd st].
    destruct T as [k ->]. rewrite <- app_assoc.
    destruct (socket w sd); now exists k.
  - destruct B as [r ->]. rewrite name_message. cbn [fst snd st goto py_str].
    destruct T as [k ->]. exists (S k). now rewrite script_S, <- app_assoc.
  - cbn. now rewrite app_nil_r.
  - contradiction.
Qed.

Lemma exec_track (w : world) (n : nat) (s : thread) (t : list effect) :
  bound s -> track t s -> track (t ++ snd (exec w n s)) (fst (exec w n s)).
Proof.
  revert s t; induction n as [|n IH]; intros s t B T; cbn [exec].
  - cbn. now rewrite app_nil_r.
  - destruct (step_bound w s B) as [B1 _].
    pose proof (step_track w s t B T) as T1.
    destruct (step w s) as [s1 e1]; cbn [fst snd] in *.
    specialize (IH s1 (t ++ e1)%list B1 T1).
    destruct (exec w n s1) as [s2 e2]; cbn [fst snd] in *.
    now rewrite app_assoc.
Qed.

Lemma track_start : track [] start.
Proof. vm_compute. split; reflexivity. Qed.

(** What a thread is tracked with is the beginning of a script. *)
Lemma track_prefix (t : list effect) (s : thread) :
  track t s -> exists k m, t = firstn m (script k).
Proof.
  assert (P : forall k (l : list effect) j,
             (script k ++ firstn j beat)%list
             = firstn (List.length (script k) + j) (script (S k))).
  { intros k l j. rewrite script_S, firstn_app_2. reflexivity. }
  unfold track. destruct (st s) as [[]|ex|]; intros T.
  - destruct T as [-> _]. now exists 0, 0.
  - subst t. now exists 0, 1.
  - subst t. now exists 0, 2.
  - subst t. now exists 0, 2.
  - destruct T as [k ->]. exists k, (List.length (script k)). now rewrite firstn_all.
  - destruct T as [k ->]. exists k, (List.length (script k)). now rewrite firstn_all.
  - destruct T as [k ->]. exists (S k), (List.length (script k) + 1). apply (P k [] 1).
  - destruct T as [k ->]. exists (S k), (List.length (script k) + 1). apply (P k [] 1).
  - destruct T as [k ->]. exists (S k), (List.length (script k) + 1). apply (P k [] 1).
  - destruct T as [k ->]. exists (S k), (List.length (script k) + 1). apply (P k [] 1).
  - destruct T as [k ->]. exists (S k), (List.length (script k) + 2). apply (P k [] 2).
  - destruct ex; try (subst t; now exists 0, 2).
    destruct T as [k ->]. exists (S k), (List.length (script k) + 2). apply (P k [] 2).
  - contradiction.
Qed.

(** The names the loop does not bind keep their values. *)
Lemma lookup_unbind_other (x y : string) (e g : env) :
  x <> y -> lookup x (unbind y e ++ g)%list = lookup x (e ++ g)%list.
Proof.
  intros H. induction e as [|[z v] e IH]; [reflexivity|].
  cbn [unbind]. destruct (String.eqb_spec y z) as [<- | Hyz].
  - cbn [lookup app]. rewrite IH.
    destruct (String.eqb_spec x y); [contradiction | reflexivity].
  - cbn [lookup app]. now rewrite IH.
Qed.

Lemma lookup_assign_other (x y : string) (v : value) (e g : env) :
  x <> y -> lookup x (assign y v e ++ g)%list = lookup x (e ++ g)%list.
Proof.
  intros H. unfold assign. cbn [lookup app].
  destruct (String.eqb_spec x y); [contradiction|].
  now apply lookup_unbind_other.
Qed.

Lemma step_keeps (w : world) (s : thread) (x : string) :
  past_startup (st s) = true -> ~ In x loop_names ->
  past_startup (st (fst (step w s))) = true
  /\ name x (fst (step w s)) = name x s.
Proof.
  intros P Hx.
  assert (N : x <> "ret" /\ x <> "frame" /\ x <> "angle" /\ x <> "throttle"
              /\ x <> "message")
    by (repeat split; intros ->; apply Hx; cbn; tauto).
  destruct N as (N1 & N2 & N3 & N4 & N5).
  destruct s as [st0 loc rd sd]. cbn [st] in P. unfold step, name. cbn [st locals].
  destruct st0 as [[]| |]; try discriminate P; cbn [st locals reads sends].
  - now split.
  - unfold cap_read; cbn [reads locals sends]. destruct (video w rd).
    cbn [fst st locals]. split; [reflexivity|].
    now rewrite !lookup_assign_other.
  - cbn [fst goto store st locals]. split; [reflexivity|].
    now rewrite lookup_assign_other.
  - cbn [fst goto store st locals]. split; [reflexivity|].
    now rewrite lookup_assign_other.
  - destruct (fstring _ _); cbn [fst goto store raise st locals];
      (split; [reflexivity|]); [now rewrite lookup_assign_other | reflexivity].
  - destruct (lookup "message" _); cbn [fst raise st locals]; [|now split].
    split; [now destruct (socket w sd) | reflexivity].
  - destruct (lookup "message" _); cbn [fst goto raise st locals]; now split.
  - now split.
  - now split.
Qed.

Lemma exec_keeps (w : world) (n : nat) (s : thread) (x : string) :
  past_startup (st s) = true -> ~ In x loop_names ->
  name x (fst (exec w n s)) = name x s.
Proof.
  revert s; induction n as [|n IH]; intros s P Hx; cbn [exec]; [reflexivity|].
  destruct (step_keeps w s x P Hx) as [P1 E1].
  destruct (step w s) as [s1 e1]; cbn [fst snd] in *.
  specialize (IH s1 P1 Hx).
  destruct (exec w n s1) as [s2 e2]; cbn [fst snd] in *. congruence.
Qed.

(** The fourth statement done, with a first frame of at least two
    dimensions. *)
Lemma after_startup (w : world) (a : ndarray) (h wd : Z) (rest : list Z) :
  snd (video w 0) = Some a -> shape a = h :: wd :: rest ->
  st (fst (exec w 4 start)) = At L34
  /\ reads (fst (exec w 4 start)) = 1
  /\ name "height" (fst (exec w 4 start)) = Ok (PyInt h)
  /\ name "width" (fst (exec w 4 start)) = Ok (PyInt wd).
Proof.
  destruct (video w 0) as [ret f] eqn:Ev. cbn [snd]. intros -> Hsh.
  destruct a as [sh smp]. cbn [shape] in Hsh. subst sh.
  cbv -[video socket]. rewrite Ev. cbv -[video socket]. repeat split.
Qed.

Lemma reads_after_startup (w : world) :
  startup_ok (snd (video w 0)) = true ->
  reads (fst (exec w 4 start)) = 1.
Proof.
  destruct (video w 0) as [ret [[[|h [|wd sh]] smp]|]] eqn:Ev;
    cbn [snd]; try (intros H; discriminate H); intros _.
  cbv -[video socket]. rewrite Ev. reflexivity.
Qed.

Lemma beats_while_send_returns (w : world) (k : nat) (s : thread) :
  st s = At L34 ->
  (forall j, j < k -> socket w (sends s + j) = true) ->
  snd (exec w (7 * k) s) = concat (repeat beat k).
Proof.
  revert s; induction k as [|k IH]; intros s H Hs; [reflexivity|].
  replace (7 * S k) with (7 + 7 * k) by lia.
  destruct (exec_add w 7 (7 * k) s) as [_ ->].
  destruct (turn_from_head w s H) as (s' & E & Hst & Hr & Hd).
  unfold turn in E. rewrite E. cbn [fst snd].
  assert (S0 : socket w (sends s) = true)
    by (rewrite <- (Nat.add_0_r (sends s)); apply Hs; lia).
  rewrite S0 in Hst |- *.
  rewrite (IH s' Hst).
  - reflexivity.
  - intros j Hj. rewrite Hd. replace (S (sends s) + j) with (sends s + S j) by lia.
    apply Hs; lia.
Qed.

(** ** Further properties of [run] and of the program *)

(** X1. What [run] does is always the beginning of one fixed script: the
    capture is opened once, on the video address, the first frame is read,
    and then each turn reads a frame, sends the command and prints it, in
    this order.  After any number of statements, in any world, the trace
    is a prefix of that script for some number of turns: the capture is
    never opened again, nothing is sent before two reads, and nothing is
    printed that was not sent just before. *)
Theorem run_follows_script (w : world) (n : nat) :
  exists k m, snd (exec w n start) = firstn m (script k).
Proof.
  apply (track_prefix _ (fst (exec w n start))).
  apply (exec_track w n start [] I track_start).
Qed.

(** X2. Start-up and the loop together: when the first read delivers a
    frame with a height and a width and the socket takes the first [k]
    commands, then after the four statements of the start-up and seven for
    each turn the thread is back at the head of the loop, has read [k + 1]
    frames and sent [k] commands, and has done exactly the script for [k]
    turns, whatever the later reads returned, failed reads included. *)
Theorem commands_flow_from_start (w : world) (k : nat) :
  startup_ok (snd (video w 0)) = true ->
  (forall j, j < k -> socket w j = true) ->
  st (fst (exec w (4 + 7 * k) start)) = At L34
  /\ reads (fst (exec w (4 + 7 * k) start)) = S k
  /\ sends (fst (exec w (4 + 7 * k) start)) = k
  /\ snd (exec w (4 + 7 * k) start) = script k.
Proof.
  intros Ho Hs.
  destruct (exec_add w 4 (7 * k) start) as [-> ->].
  pose proof (early_status w 4 (le_n 4)) as S1.
  pose proof (early_sends w 4 (le_n 4)) as D1.
  pose proof (reads_after_startup w Ho) as R1.
  rewrite early_4 in S1. unfold startup_ok in Ho.
  destruct (startup (snd (video w 0))); [discriminate Ho|].
  rewrite (early_effects w 4 (le_n 4)).
  assert (Hs' : forall j, j < k -> socket w (sends (fst (exec w 4 start)) + j) = true)
    by (intros j Hj; rewrite D1; now apply Hs).
  destruct (turns_while_send_returns w k _ S1 Hs') as (I1 & I2 & I3 & _).
  rewrite (beats_while_send_returns w k _ S1 Hs').
  rewrite I1, I2, I3, R1, D1. repeat split.
Qed.

Lemma commands_flow_from_start_witness :
  st (fst (exec Sample.w_flaky (4 + 7 * 3) start)) = At L34
  /\ reads (fst (exec Sample.w_flaky (4 + 7 * 3) start)) = 4
  /\ sends (fst (exec Sample.w_flaky (4 + 7 * 3) start)) = 3
  /\ snd (exec Sample.w_flaky (4 + 7 * 3) start) = script 3.
Proof.
  apply (commands_flow_from_start Sample.w_flaky 3); reflexivity.
Defined.

(** X3. The first frame alone decides whether the loop is entered.  From
    the fourth statement on: with a frame of at least two dimensions the
    thread is in the loop, or was ended there by a send that the socket
    refused; with a frame of fewer dimensions line 31 or 32 raised
    IndexError, with no frame line 31 raised AttributeError, and in both
    cases all the thread ever did was open the capture and read once. *)
Theorem first_frame_decides (w : world) (n : nat) :
  4 <= n ->
  match snd (video w 0) with
  | Some a =>
      match shape a with
      | _ :: _ :: _ =>
          in_loop (st (fst (exec w n start))) = true
          \/ (st (fst (exec w n start)) = Raised ConnectionClosed
              /\ exists k, socket w k = false)
      | _ =>
          st (fst (exec w n start)) = Raised IndexError
          /\ snd (exec w n start) = script 0
      end
  | None =>
      st (fst (exec w n start)) = Raised AttributeError
      /\ snd (exec w n start) = script 0
  end.
Proof.
  intros Hn. replace n with (4 + (n - 4)) by lia.
  destruct (exec_add w 4 (n - 4) start) as [-> ->].
  pose proof (early_status w 4 (le_n 4)) as S1.
  rewrite early_4 in S1. rewrite (early_effects w 4 (le_n 4)).
  destruct (snd (video w 0)) as [[[|h [|wd sh]] smp]|]; cbn in S1 |- *.
  - rewrite exec_over by (intros l; rewrite S1; discriminate). now split.
  - rewrite exec_over by (intros l; rewrite S1; discriminate). now split.
  - apply exec_in_loop; [now rewrite S1 | unfold bound; now rewrite S1].
  - rewrite exec_over by (intros l; rewrite S1; discriminate). now split.
Qed.

Lemma first_frame_decides_witness :
  in_loop (st (fst (exec Sample.w_flaky 30 start))) = true
  \/ (st (fst (exec Sample.w_flaky 30 start)) = Raised ConnectionClosed
      /\ exists k, socket Sample.w_flaky k = false).
Proof.
  apply (first_frame_decides Sample.w_flaky 30). lia.
Defined.

(** X4. [height] and [width] are those of the first frame for as long as
    the thread lives: lines 31 and 32 bind them once, the loop binds other
    names only, so whatever shape the later frames have, and also when
    later reads fail, the two names keep the first frame's first two
    dimensions. *)
Theorem frame_size_is_fixed
    (w : world) (n : nat) (a : ndarray) (h wd : Z) (rest : list Z) :
  4 <= n ->
  snd (video w 0) = Some a ->
  shape a = h :: wd :: rest ->
  name "height" (fst (exec w n start)) = Ok (PyInt h)
  /\ name "width" (fst (exec w n start)) = Ok (PyInt wd).
Proof.
  intros Hn Hf Hsh. replace n with (4 + (n - 4)) by lia.
  destruct (exec_add w 4 (n - 4) start) as [-> _].
  destruct (after_startup w a h wd rest Hf Hsh) as (S1 & _ & Hh & Hw).
  split.
  - rewrite exec_keeps; [exact Hh | now rewrite S1 |].
    cbn. intuition discriminate.
  - rewrite exec_keeps; [exact Hw | now rewrite S1 |].
    cbn. intuition discriminate.
Qed.

Lemma frame_size_is_fixed_witness :
  name "height" (fst (exec Sample.w_flaky 30 start)) = Ok (PyInt 240)
  /\ name "width" (fst (exec Sample.w_flaky 30 start)) = Ok (PyInt 320).
Proof.
  apply (frame_size_is_fixed Sample.w_flaky 30 Sample.frame1 240 320 [3%Z]);
    [lia | reflexivity | reflexivity].
Defined.

(** X5. In the whole program every started thread follows the script on
    its own: however the main thread and the threads are interleaved and
    whatever events are delivered, what a thread did, read off the log, is
    a prefix of the script, so each thread opens a capture of its own once
    and sends nothing before its second read. *)
Theorem threads_follow_script
    (env : nat -> world) (events : list ws_event) (sched : list choice)
    (i : nat) (t : thread) :
  nth_error (threads (run_sys env sched (init events))) i = Some t ->
  exists k m,
    proj (S i) (log (run_sys env sched (init events))) = firstn m (script k).
Proof.
  intros H.
  destruct (sound_run env events sched) as (_ & _ & _ & _ & Hsolo).
  destruct (Hsolo i t H) as [n Hn].
  apply (track_prefix _ t).
  pose proof (exec_track (env i) n start [] I track_start) as T.
  now rewrite Hn in T.
Qed.

Lemma threads_follow_script_witness :
  exists k m,
    proj 1 (log (run_sys (fun _ => Sample.w_steady) Sample.sched0
                   (init Sample.events0)))
    = firstn m (script k).
Proof.
  apply (threads_follow_script (fun _ => Sample.w_steady) Sample.events0
           Sample.sched0 0
           (fst (exec Sample.w_steady 15 start))).
  vm_compute. reflexivity.
Defined.

(** X6. A send that the socket refuses is the last thing a thread does:
    when the thread was ended by the exception of [ws.send], what it did is
    the script for some number of full turns, then one more read and the
    refused send; the command of that turn is not printed, line 42 being
    skipped, and nothing follows. *)
Theorem refused_send_is_last (w : world) (n : nat) :
  st (fst (exec w n start)) = Raised ConnectionClosed ->
  exists k,
    snd (exec w n start)
    = (script k ++ [CapRead; WsSend (PyStr command)])%list.
Proof.
  intros H.
  pose proof (exec_track w n start [] I track_start) as T.
  unfold track in T. rewrite H in T. exact T.
Qed.

Lemma refused_send_is_last_witness :
  exists k,
    snd (exec Sample.w_closing 17 start)
    = (script k ++ [CapRead; WsSend (PyStr command)])%list.
Proof.
  apply (refused_send_is_last Sample.w_closing 17). vm_compute. reflexivity.
Defined.

(** ** The loop, from inside and from outside *)

(** A statement of the loop never lowers the count of sends, and when it
    ends the thread it is the send that was refused. *)
Lemma step_refused (w : world) (s : thread) :
  in_loop (st s) = true -> bound s ->
  (in_loop (st (fst (step w s))) = true /\ sends s <= sends (fst (step w s)))
  \/ (st (fst (step w s)) = Raised ConnectionClosed
      /\ sends (fst (step w s)) = S (sends s)
      /\ socket w (sends s) = false).
Proof.
  destruct s as [st0 loc rd sd]. unfold bound, step. cbn [st locals sends].
  destruct st0 as [[]| |]; intros L B; try discriminate L;
    cbn [st locals reads sends].
  - left. now split.
  - unfold cap_read; cbn [reads sends]. destruct (video w rd). left. now split.
  - left. now split.
  - left. now split.
  - destruct B as [r ->]. rewrite message_is_command. left. now split.
  - destruct B as [r ->]. rewrite name_message. cbn [fst st sends].
    destruct (socket w sd); [left | right]; repeat split; lia.
  - destruct B as [r ->]. rewrite name_message. left. now split.
Qed.

Lemma exec_refused (w : world) (n : nat) (s : thread) (e : exn) :
  in_loop (st s) = true -> bound s ->
  st (fst (exec w n s)) = Raised e ->
  e = ConnectionClosed
  /\ exists j, sends s <= j /\ sends (fst (exec w n s)) = S j
               /\ socket w j = false.
Proof.
  revert s; induction n as [|n IH]; intros s L B; cbn [exec].
  - cbn [fst]. intros E. rewrite E in L. discriminate L.
  - destruct (step_refused w s L B) as [[L1 M1] | (R1 & D1 & F1)];
      destruct (step_bound w s B) as [B1 _];
      destruct (step w s) as [s1 e1]; cbn [fst snd] in *.
    + specialize (IH s1 L1 B1).
      destruct (exec w n s1) as [s2 e2]; cbn [fst snd] in *.
      intros E. destruct (IH E) as (-> & j & Hj & Hd & Hf).
      split; [reflexivity|]. exists j. repeat split; [lia | exact Hd | exact Hf].
    + rewrite exec_over by (intros l; rewrite R1; discriminate).
      cbn [fst]. rewrite R1. intros [= <-]. split; [reflexivity|].
      exists (sends s). repeat split; [lia | exact D1 | exact F1].
Qed.

(** Once the interpreter has exited nothing moves. *)
Lemma run_proc_ended (env : nat -> world) (more : list move) (p : process) :
  ended p = true -> run_proc env more p = p.
Proof.
  intros E. unfold run_proc. induction more as [|m more IH]; [reflexivity|].
  cbn [fold_left]. unfold proc_step at 2. rewrite E. exact IH.
Qed.

Lemma run_proc_app (env : nat -> world) (a b : list move) (p : process) :
  run_proc env (a ++ b) p = run_proc env b (run_proc env a p).
Proof. apply fold_left_app. Qed.

Lemma run_proc_go (env : nat -> world) (cs : list choice) (s : system) :
  run_proc env (map Go cs) {| prog := s; ended := false |}
  = {| prog := run_sys env cs s; ended := false |}.
Proof.
  revert s; induction cs as [|c cs IH]; intros s; [reflexivity|].
  cbn [map]. unfold run_proc, run_sys. cbn [fold_left].
  unfold proc_step at 2. cbn [ended prog]. apply IH.
Qed.

(** The exit changes nothing in the program: it stays sound. *)
Lemma sound_proc (env : nat -> world) (events : list ws_event)
    (moves : list move) :
  sound env (prog (run_proc env moves (boot events))).
Proof.
  assert (G : forall p, sound env (prog p) ->
                        sound env (prog (run_proc env moves p))).
  { unfold run_proc. induction moves as [|m moves IH]; intros p Hp; [exact Hp|].
    cbn [fold_left]. apply IH. unfold proc_step.
    destruct (ended p); [exact Hp|].
    destruct m as [c|]; cbn [prog].
    - now apply sound_step.
    - now destruct (pending (prog p)). }
  apply G. apply sound_init.
Qed.

(** The only thread started runs [n] statements in a row. *)
Lemma bg_steps (env : nat -> world) (n : nat) (t : thread)
    (pd : list ws_event) (l : list item) :
  run_sys env (repeat (Bg 0) n) {| pending := pd; threads := [t]; log := l |}
  = {| pending := pd;
       threads := [fst (exec (env 0) n t)];
       log := (l ++ map (Did 1) (snd (exec (env 0) n t)))%list |}.
Proof.
  revert t l; induction n as [|n IH]; intros t l.
  - cbn. now rewrite app_nil_r.
  - change (repeat (Bg 0) (S n)) with (Bg 0 :: repeat (Bg 0) n).
    unfold run_sys in *. cbn [fold_left].
    unfold sys_step at 2. cbn [threads nth_error pending log exec].
    destruct (step (env 0) t) as [t1 e1]. cbn [replace].
    rewrite IH. destruct (exec (env 0) n t1) as [t2 e2]. cbn [fst snd].
    now rewrite map_app, app_assoc.
Qed.

(** The connection opens, the thread runs [n] statements, the connection
    closes and [run_forever] returns. *)
Lemma cut_off (env : nat -> world) (n : nat) (code msg : value) :
  let p := run_proc env
             (Go Main :: map Go (repeat (Bg 0) n) ++ [Go Main; Leave])%list
             (boot [Open; Close code msg]) in
  ended p = true /\ threads (prog p) = [fst (exec (env 0) n start)].
Proof.
  intros p. subst p.
  change (Go Main :: map Go (repeat (Bg 0) n) ++ [Go Main; Leave])%list
    with ([Go Main] ++ map Go (repeat (Bg 0) n) ++ [Go Main; Leave])%list.
  rewrite !run_proc_app.
  change (run_proc env [Go Main] (boot [Open; Close code msg]))
    with {| prog := {| pending := [Close code msg];
                       threads := [start];
                       log := (map (Did 0) main
                                 ++ [Fired Open; Did 0 StartThread])%list |};
            ended := false |}.
  rewrite run_proc_go, bg_steps.
  unfold run_proc. cbn [fold_left]. unfold proc_step, sys_step.
  cbn [ended prog pending threads dispatch on_close app]. split; reflexivity.
Qed.

(** C4, amended.  [run] has no way out of the loop of its own: from the
    head of the loop it never returns, whatever the video and the socket
    do; as long as the sends return, each turn takes it back to the head,
    with one more read and one more command sent; it is over only when its
    own last send was refused, the exception of that send being caught
    nowhere; and every call it makes is the opening of the capture, a
    read, a send of the command or a print of it, none that releases the
    capture or closes the socket.  From outside the loop is cut off when
    the process ends: the exit raises nothing in a thread and changes
    nothing of what it did, each thread standing where [run] alone stands
    after some number of statements; after the exit nothing moves any
    more; and a connection that opens and closes ends the process with
    the thread stopped after any number [n] of statements, in the middle
    of the loop as well. *)
Theorem loop_has_no_exit_of_its_own
    (w : world) (s : thread) (n k : nat)
    (env : nat -> world) (events : list ws_event) (moves : list move)
    (code msg : value) :
  st s = At L34 ->
  (st (fst (exec w n s)) <> Returned
   /\ (forall e, st (fst (exec w n s)) = Raised e ->
         e = ConnectionClosed
         /\ exists j, sends s <= j /\ sends (fst (exec w n s)) = S j
                      /\ socket w j = false)
   /\ ((forall j, j < k -> socket w (sends s + j) = true) ->
       st (fst (exec w (7 * k) s)) = At L34
       /\ reads (fst (exec w (7 * k) s)) = reads s + k
       /\ sends (fst (exec w (7 * k) s)) = sends s + k
       /\ sent (snd (exec w (7 * k) s)) = repeat (PyStr command) k)
   /\ Forall plain (snd (exec w n s)))
  /\ (let p := run_proc env moves (boot events) in
      (forall i t, nth_error (threads (prog p)) i = Some t ->
         Forall plain (proj (S i) (log (prog p)))
         /\ exists m, exec (env i) m start = (t, proj (S i) (log (prog p))))
      /\ (ended p = true -> forall more, run_proc env more p = p))
  /\ (let p := run_proc env
                 (Go Main :: map Go (repeat (Bg 0) n) ++ [Go Main; Leave])%list
                 (boot [Open; Close code msg]) in
      ended p = true /\ threads (prog p) = [fst (exec (env 0) n start)]).
Proof.
  intros H.
  assert (L : in_loop (st s) = true) by now rewrite H.
  assert (B : bound s) by (unfold bound; now rewrite H).
  split; [|split].
  - split; [|split; [|split]].
    + destruct (exec_in_loop w n s L B) as [I | [R _]].
      * intros E; rewrite E in I; discriminate.
      * rewrite R; discriminate.
    + intros e. now apply exec_refused.
    + now apply turns_while_send_returns.
    + now apply exec_bound.
  - cbn zeta. split.
    + intros i t Ht.
      destruct (sound_proc env events moves) as (_ & _ & _ & _ & Hsolo).
      destruct (Hsolo i t Ht) as [m Hm]. split; [|now exists m].
      pose proof (exec_bound (env i) m start I) as [_ P].
      now rewrite Hm in P.
    + intros E more. now apply run_proc_ended.
  - apply cut_off.
Qed.

Lemma loop_has_no_exit_of_its_own_witness :
  st (fst (exec Sample.w_steady 4 start)) = At L34
  /\ st (fst (exec Sample.w_steady (7 * 5) (fst (exec Sample.w_steady 4 start))))
     = At L34
  /\ sends (fst (exec Sample.w_steady (7 * 5) (fst (exec Sample.w_steady 4 start))))
     = 5
  /\ ended (run_proc (fun _ => Sample.w_steady)
              (Go Main :: map Go (repeat (Bg 0) 9) ++ [Go Main; Leave])%list
              (boot [Open; Close PyNone PyNone])) = true
  /\ map st (threads (prog (run_proc (fun _ => Sample.w_steady)
              (Go Main :: map Go (repeat (Bg 0) 9) ++ [Go Main; Leave])%list
              (boot [Open; Close PyNone PyNone])))) = [At L41].
Proof.
  split; [vm_compute; reflexivity|].
  destruct (loop_has_no_exit_of_its_own Sample.w_steady
              (fst (exec Sample.w_steady 4 start)) 9 5
              (fun _ => Sample.w_steady) Sample.events0 [] PyNone PyNone)
    as ((_ & _ & H & _) & _ & (E & T)).
  - vm_compute; reflexivity.
  - destruct H as (H1 & _ & H3 & _).
    + intros j _. reflexivity.
    + split; [exact H1|]. split; [exact H3|]. split; [exact E|].
      rewrite T. vm_compute. reflexivity.
Defined.
